(** * Route construction of the tax-inspector notebook

    A shallow embedding of [inference_motor.ipynb]: the greedy route
    builder [Traveler._high_value_strategy], the per-day driver loop and
    the flattening of the routes into the submission table, together with
    the travel-time model documented in the README.

    Conventions of the embedding.
    - A Python [int] is a [Z], an index produced by [enumerate] a [nat].
    - A finite Python [float] is a dyadic rational, so floats are carried
      as [Q] and compared with [Qcompare]; on finite floats Python's [<]
      and the order of [Q] agree.  [nan] and the infinities are outside
      the data model ([fee_value >= 0] excludes [nan]).
    - A [dict] with string keys is a [gmap string _]; [d.get(k, [])] is
      [default [] (d !! k)].
    - The optimizer object ([simulator.optimizer]) comes from a module
      that is imported by the notebook but is not part of it: its
      [jurisdictions] table and its [is_valid_route] predicate are
      parameters of the development. *)

From Stdlib Require Import QArith ZArith List Permutation Sorted.
From Stdlib Require Import Ascii String DecimalString DecimalNat.
From Stdlib Require Import Reals Lra.
From stdpp Require Import gmap strings list sorting.

Local Open Scope Z_scope.
Local Open Scope nat_scope.

(** ** Data model *)

(** [POI(id, lat, lon, poi_type, fee_value, jurisdiction)], as the
    notebook prints it. *)
Record POI := mkPOI {
  id : Z;
  lat : Q;
  lon : Q;
  poi_type : string;
  fee_value : Q;
  jurisdiction : string
}.

(** ** [list.sort(key=..., reverse=...)]

    CPython sorts in place with a stable sort that only ever asks
    [key x < key y]; with [reverse=True] it reverses the list, sorts it
    ascending and reverses the result, which is what keeps equal keys in
    their original order.  The ascending sort is modelled as the insertion
    sort CPython runs on short lists: every element, taken from left to
    right, goes after the elements that are not greater than it. *)
Section ListSort.
Context {A : Type} (key : A -> Q).

Definition key_lt (x y : A) : bool :=
  match (key x ?= key y)%Q with Lt => true | _ => false end.

Fixpoint insert_sorted (x : A) (s : list A) : list A :=
  match s with
  | [] => [x]
  | y :: s' => if key_lt x y then x :: s else y :: insert_sorted x s'
  end.

Definition stable_sort (l : list A) : list A :=
  fold_left (fun s x => insert_sorted x s) l [].

Definition list_sort (reverse : bool) (l : list A) : list A :=
  if reverse then rev (stable_sort (rev l)) else stable_sort l.

(** What "sorted by key, descending, ties in their original order"
    means: the keys never increase, and for every key value the elements
    carrying it are the same, in the same order, as in the input. *)
Definition key_ge (x y : A) : Prop := (key y <= key x)%Q.
Definition key_le (x y : A) : Prop := (key x <= key y)%Q.
Definition with_key (k : Q) (l : list A) : list A :=
  List.filter (fun x => Qeq_bool (key x) k) l.
Definition sorted_desc (l : list A) : Prop := StronglySorted key_ge l.
Definition sorted_asc (l : list A) : Prop := StronglySorted key_le l.
Definition keeps_ties (l l' : list A) : Prop :=
  forall k, with_key k l' = with_key k l.

(** The sort the specification describes, written directly: insertion
    of each element, from the last to the first, in front of the first
    element whose key is not greater. *)
Fixpoint insert_desc (x : A) (s : list A) : list A :=
  match s with
  | [] => [x]
  | y :: s' => if key_lt x y then y :: insert_desc x s' else x :: s
  end.

Definition spec_sort_desc (l : list A) : list A :=
  fold_right insert_desc [] l.
End ListSort.

(** ** The greedy route builder *)
Section Traveler.
(** [self.simulator.optimizer.jurisdictions] and
    [self.simulator.optimizer.is_valid_route]. *)
Variable jurisdictions : gmap string (list POI).
Variable is_valid_route : POI -> list POI -> bool.

(** The body of the [for poi in available_pois] loop: the state is
    [selected_pois]. *)
Definition try_poi (starting_point : POI) (selected_pois : list POI)
    (poi : POI) : list POI :=
  let test_route := selected_pois ++ [poi] in
  if (length test_route <=? 8) && is_valid_route starting_point test_route
  then selected_pois ++ [poi]
  else selected_pois.

(** [Traveler._high_value_strategy].  The comprehension makes a new list,
    so the in-place sort leaves the table of the optimizer as it was, and
    [selected_pois] is local to the call: the method reads the optimizer
    and writes nothing. *)
Definition high_value_strategy (starting_point : POI) : list POI :=
  let jurisdiction_pois :=
    default [] (jurisdictions !! jurisdiction starting_point) in
  let available_pois :=
    List.filter (fun poi => negb (id poi =? id starting_point)%Z)
      jurisdiction_pois in
  let available_pois := list_sort fee_value true available_pois in
  fold_left (try_poi starting_point) available_pois [].

(** The same loop with the [len(test_route) <= 8] conjunct dropped: the
    builder with its cap set to infinity. *)
Definition try_poi_uncapped (starting_point : POI)
    (selected_pois : list POI) (poi : POI) : list POI :=
  let test_route := selected_pois ++ [poi] in
  if is_valid_route starting_point test_route
  then selected_pois ++ [poi]
  else selected_pois.

Definition high_value_strategy_uncapped (starting_point : POI) : list POI :=
  let jurisdiction_pois :=
    default [] (jurisdictions !! jurisdiction starting_point) in
  let available_pois :=
    List.filter (fun poi => negb (id poi =? id starting_point)%Z)
      jurisdiction_pois in
  let available_pois := list_sort fee_value true available_pois in
  fold_left (try_poi_uncapped starting_point) available_pois [].

(** The driver cell: [paths.append(t._high_value_strategy(ele))] for
    each starting point. *)
Definition build_paths (starting_points : list POI) : list (list POI) :=
  fold_left (fun paths ele => paths ++ [high_value_strategy ele])
    starting_points [].

(** The procedure of the specification, step by step. *)
Definition spec_candidates (starting_point : POI) : list POI :=
  List.filter (fun poi => negb (id poi =? id starting_point)%Z)
    (default [] (jurisdictions !! jurisdiction starting_point)).

Fixpoint spec_scan (starting_point : POI) (accepted candidates : list POI)
    : list POI :=
  match candidates with
  | [] => accepted
  | candidate :: rest =>
      let tentative := accepted ++ [candidate] in
      if (length tentative <=? 8) && is_valid_route starting_point tentative
      then spec_scan starting_point tentative rest
      else spec_scan starting_point accepted rest
  end.

Definition spec_route (starting_point : POI) : list POI :=
  spec_scan starting_point []
    (spec_sort_desc fee_value (spec_candidates starting_point)).
End Traveler.

(** ** Flattening the routes into the submission table *)

(** [enumerate(iterable, start)]. *)
Fixpoint enumerate_from {A : Type} (start : nat) (l : list A)
    : list (nat * A) :=
  match l with
  | [] => []
  | x :: l' => (start, x) :: enumerate_from (S start) l'
  end.

Definition enumerate {A : Type} (l : list A) : list (nat * A) :=
  enumerate_from 0 l.

(** [str(n)] for a non-negative [int]: its decimal digits. *)
Definition str (n : nat) : string :=
  NilEmpty.string_of_uint (Nat.to_uint n).

(** A row of [flat_data]; the keys of the dictionary are the columns of
    the table.  The column the notebook calls [jurisdiction_id] holds
    [poi_idx], the position of the stop in its route. *)
Module TableRow.
Record t := mk {
  route_id : string;
  jurisdiction_id : nat;
  poi_id : Z;
  lat : Q;
  lon : Q
}.
End TableRow.

Definition make_row (route_idx poi_idx : nat) (poi : POI) : TableRow.t :=
  {| TableRow.route_id := "R_" +:+ jurisdiction poi +:+ "_" +:+ str route_idx;
     TableRow.jurisdiction_id := poi_idx;
     TableRow.poi_id := id poi;
     TableRow.lat := lat poi;
     TableRow.lon := lon poi |}.

(** The two nested [for ... in enumerate(...)] loops that fill
    [flat_data]. *)
Definition flat_data (paths : list (list POI)) : list TableRow.t :=
  fold_left
    (fun flat (entry : nat * list POI) =>
       let (route_idx, poi_list) := entry in
       fold_left
         (fun flat (stop : nat * POI) =>
            let (poi_idx, poi) := stop in
            flat ++ [make_row route_idx poi_idx poi])
         (enumerate poi_list) flat)
    (enumerate paths) [].

(** Modelled from the spec: re-grouping the table by [route_id] is an
    operation of the specification only, the notebook has no code for it.
    Rows are read in table order; a row joins the group of its
    [route_id], a new [route_id] opens a new group after the existing
    ones (an insertion-ordered dictionary of lists). *)
Fixpoint group_append (r : TableRow.t) (groups : list (string * list TableRow.t))
    : list (string * list TableRow.t) :=
  match groups with
  | [] => [(TableRow.route_id r, [r])]
  | (k, rows) :: groups' =>
      if String.eqb k (TableRow.route_id r)
      then (k, rows ++ [r]) :: groups'
      else (k, rows) :: group_append r groups'
  end.

Definition regroup (rows : list TableRow.t) : list (string * list TableRow.t) :=
  fold_left (fun groups r => group_append r groups) rows [].

(** What the table keeps of a stop: the POI id and its coordinates. *)
Definition stop_of_row (r : TableRow.t) : Z * Q * Q :=
  (TableRow.poi_id r, TableRow.lat r, TableRow.lon r).
Definition stop_of_poi (poi : POI) : Z * Q * Q :=
  (id poi, lat poi, lon poi).

Definition regrouped_routes (rows : list TableRow.t) : list (list (Z * Q * Q)) :=
  map (fun g => map stop_of_row (snd g)) (regroup rows).
Definition original_routes (paths : list (list POI))
    : list (list (Z * Q * Q)) :=
  map (map stop_of_poi) paths.

(** The rows a day contributes, written as a comprehension. *)
Definition rows_of_route (route_idx : nat) (poi_list : list POI)
    : list TableRow.t :=
  imap (fun poi_idx poi => make_row route_idx poi_idx poi) poi_list.

(** A route in the sense of the data model stays inside one jurisdiction. *)
Definition one_jurisdiction (route : list POI) : Prop :=
  forall p q, In p route -> In q route -> jurisdiction p = jurisdiction q.

(** ** The jurisdiction index *)

(** The invariant of the index: every POI is filed under its own
    jurisdiction, and POI ids are unique within an entry. *)
Definition index_wf (jurisdictions : gmap string (list POI)) : Prop :=
  forall j pois, jurisdictions !! j = Some pois ->
    Forall (fun poi => jurisdiction poi = j) pois /\ NoDup (map id pois).

(** Modelled from the spec: [build(all_pois)], the construction of the
    index, belongs to the imported optimizer and is not in the notebook.
    One pass over the dataset appends each POI to the list of its
    jurisdiction. *)
Definition build (all_pois : list POI) : gmap string (list POI) :=
  fold_left
    (fun index poi =>
       <[jurisdiction poi :=
           default [] (index !! jurisdiction poi) ++ [poi]]> index)
    all_pois ∅.

(** ** The example of day 1 *)
Module Day1.
Definition starting_point : POI :=
  mkPOI 9000 41.8907406 12.4773952 "starting_point" 0 "J5".
Definition swimming_pool : POI :=
  mkPOI 5232181090 41.89043045043945 12.43865585327148
    "swimming_pool" 240.34 "J5".
Definition sports_centre : POI :=
  mkPOI 11208102698 41.88479232788086 12.47138786315918
    "sports_centre" 228.10 "J5".
Definition bakery : POI :=
  mkPOI 4224427195 41.88856506347656 12.47531795501709
    "bakery" 171.01 "J5".
Definition hairdresser : POI :=
  mkPOI 10248418330 41.89698791503906 12.47434425354004
    "hairdresser" 139.23 "J5".
Definition pool : list POI :=
  [swimming_pool; sports_centre; bakery; hairdresser].

(** A dataset that lists the pool in some other order, and an optimizer
    for which every route is feasible. *)
Definition dataset : list POI :=
  [bakery; hairdresser; swimming_pool; sports_centre].
Definition index : gmap string (list POI) := {[ "J5" := dataset ]}.
Definition all_feasible (starting_point : POI) (route : list POI) : bool :=
  true.

(** The starting point of day 2 lies in [J6], which [index] does not
    know. *)
Definition day2_starting_point : POI :=
  mkPOI 9001 41.9023265 12.4988301 "starting_point" 0 "J6".

(** The routes of the two days over [index]: day 2 has none. *)
Definition paths : list (list POI) := [pool; []].
End Day1.

(** ** The travel-time model *)

(** Modelled from the spec: the distance function lives in the imported
    optimizer; the repository only documents it (README, section Routing:
    Haversine distance, walking speed 5 km/h, correction factor 2).  The
    model is the formula over the real numbers, with coordinates in decimal
    degrees, the Earth radius in kilometres and the result in hours;
    rounding of floating-point arithmetic is not part of it. *)
Module GeoDistance.
Local Open Scope R_scope.

Definition earth_radius_km : R := 6371.
Definition walking_speed_kmh : R := 5.
Definition correction_factor : R := 2.

Definition radians (degrees : R) : R := degrees * PI / 180.

Definition haversine_km (lat1 lon1 lat2 lon2 : R) : R :=
  let phi1 := radians lat1 in
  let phi2 := radians lat2 in
  let dphi := radians (lat2 - lat1) in
  let dlambda := radians (lon2 - lon1) in
  let a := (sin (dphi / 2))² + cos phi1 * cos phi2 * (sin (dlambda / 2))² in
  2 * earth_radius_km * asin (sqrt a).

Definition travel_time (lat1 lon1 lat2 lon2 : R) : R :=
  let time_hours := haversine_km lat1 lon1 lat2 lon2 / walking_speed_kmh in
  time_hours * correction_factor.
End GeoDistance.

(** ** Auxiliary definitions for the table *)

(** The [route_id] written for a stop of jurisdiction [j] on day
    [route_idx]. *)
Definition route_id_of (j : string) (route_idx : nat) : string :=
  "R_" +:+ j +:+ "_" +:+ str route_idx.

(** Reading the day index back from a [route_id]: the text behind the
    last underscore. *)
Fixpoint has_underscore (s : string) : bool :=
  match s with
  | EmptyString => false
  | String c s' => Ascii.eqb c ("_" : Ascii.ascii) || has_underscore s'
  end.

Fixpoint after_last_underscore (s : string) : string :=
  match s with
  | EmptyString => EmptyString
  | String c s' =>
      if Ascii.eqb c ("_" : Ascii.ascii) && negb (has_underscore s') then s'
      else after_last_underscore s'
  end.

(** The rows of a run whose first day has index [n], day after day. *)
Fixpoint rows_from (n : nat) (paths : list (list POI)) : list TableRow.t :=
  match paths with
  | [] => []
  | route :: paths' => rows_of_route n route ++ rows_from (S n) paths'
  end.

(** The groups these rows fall into: one for every day with a stop, under
    the [route_id] of its first stop. *)
Fixpoint groups_from (n : nat) (paths : list (list POI))
    : list (string * list TableRow.t) :=
  match paths with
  | [] => []
  | [] :: paths' => groups_from (S n) paths'
  | (poi :: route) :: paths' =>
      (route_id_of (jurisdiction poi) n, rows_of_route n (poi :: route))
      :: groups_from (S n) paths'
  end.

Definition has_stops (route : list POI) : bool :=
  match route with [] => false | _ :: _ => true end.

(** A group whose [route_id] names a day before day [n]. *)
Definition day_before (n : nat) (g : string * list TableRow.t) : Prop :=
  exists j i, fst g = route_id_of j i /\ i < n.

(** ** Further notions about the builder and the table *)

(** Keys that are pairwise different as numbers; [Qred] picks the reduced
    fraction, on which equality of numbers is equality of terms. *)
Definition distinct_keys {A : Type} (key : A -> Q) (l : list A) : Prop :=
  NoDup (map (fun x => Qred (key x)) l).

(** The number of rows the days before day [route_idx] fill. *)
Definition rows_before (paths : list (list POI)) (route_idx : nat) : nat :=
  length (concat (take route_idx paths)).

(** Further optimizers and tables to run the builder on. *)
Module Examples.
(** An optimizer that accepts routes of at most two stops, and one that
    accepts none. *)
Definition two_stops (starting_point : POI) (route : list POI) : bool :=
  length route <=? 2.
Definition none_feasible (starting_point : POI) (route : list POI) : bool :=
  false.

(** The table of [J5] with the pool listed by descending fee. *)
Definition sorted_index : gmap string (list POI) := {[ "J5" := Day1.pool ]}.
End Examples.

(** * Properties *)

(** ** The sort *)
Section ListSortFacts.
Context {A : Type} (key : A -> Q).

Lemma key_lt_true x y : key_lt key x y = true <-> (key x < key y)%Q.
Proof.
  unfold key_lt. rewrite Qlt_alt.
  destruct (key x ?= key y)%Q; split; congruence.
Qed.

Lemma key_lt_false x y : key_lt key x y = false <-> (key y <= key x)%Q.
Proof.
  unfold key_lt. rewrite Qge_alt.
  destruct (key x ?= key y)%Q; split; congruence.
Qed.

Lemma with_key_app k l1 l2 :
  with_key key k (l1 ++ l2) = with_key key k l1 ++ with_key key k l2.
Proof. apply List.filter_app. Qed.

Lemma with_key_rev k l : with_key key k (rev l) = rev (with_key key k l).
Proof.
  induction l as [|x l IH]; [done|].
  change (rev (x :: l)) with (rev l ++ [x]).
  rewrite with_key_app, IH. unfold with_key. simpl.
  destruct (Qeq_bool (key x) k); simpl; [done|by rewrite app_nil_r].
Qed.

(** An element of [with_key k l] is an element of [l] whose key is [k]. *)
Lemma in_with_key k l x :
  In x (with_key key k l) <-> In x l /\ (key x == k)%Q.
Proof. unfold with_key. rewrite filter_In, Qeq_bool_iff. tauto. Qed.

(** No later element of an ascending list has the key of a smaller one. *)
Lemma with_key_above k s :
  Forall (fun y => (k < key y)%Q) s -> with_key key k s = [].
Proof.
  induction 1 as [|y s Hy _ IH]; [done|].
  unfold with_key in *. simpl. rewrite IH.
  destruct (Qeq_bool (key y) k) eqn:E; [|done].
  apply Qeq_bool_iff in E. rewrite E in Hy. by apply Qlt_irrefl in Hy.
Qed.

Lemma insert_sorted_perm x s : insert_sorted key x s ≡ₚ x :: s.
Proof.
  induction s as [|y s IH]; simpl; [done|].
  destruct (key_lt key x y); [done|].
  rewrite IH. apply perm_swap.
Qed.

Lemma insert_sorted_asc x s :
  sorted_asc key s -> sorted_asc key (insert_sorted key x s).
Proof.
  unfold sorted_asc. induction s as [|y s IH]; simpl; intros Hs.
  - repeat constructor.
  - apply StronglySorted_cons in Hs as [Hy Hs].
    destruct (key_lt key x y) eqn:E.
    + apply key_lt_true in E. constructor; [by constructor|].
      constructor; [unfold key_le; by apply Qlt_le_weak|].
      eapply Forall_impl; [exact Hy|]. unfold key_le. intros z Hz.
      eapply Qle_trans; [by apply Qlt_le_weak|done].
    + apply key_lt_false in E. constructor; [by apply IH|].
      rewrite insert_sorted_perm. by constructor.
Qed.

(** Inserting into an ascending list puts the new element last among
    those of its key. *)
Lemma with_key_cons k x l :
  with_key key k (x :: l) = with_key key k [x] ++ with_key key k l.
Proof. apply (with_key_app k [x] l). Qed.

Lemma with_key_insert_sorted k x s :
  sorted_asc key s ->
  with_key key k (insert_sorted key x s)
  = with_key key k s ++ with_key key k [x].
Proof.
  unfold sorted_asc. induction s as [|y s IH]; intros Hs; [done|].
  apply StronglySorted_cons in Hs as [Hy Hs]. cbn [insert_sorted].
  destruct (key_lt key x y) eqn:E.
  - apply key_lt_true in E. rewrite (with_key_cons k x).
    assert (Hx : with_key key k [x] = [] \/ (key x == k)%Q).
    { unfold with_key. simpl. destruct (Qeq_bool (key x) k) eqn:Ek; [|by left].
      right. by apply Qeq_bool_iff. }
    destruct Hx as [-> | Ek]; [by rewrite app_nil_r|].
    rewrite (with_key_above k (y :: s)); [by rewrite app_nil_r|].
    constructor; [by rewrite <- Ek|].
    eapply Forall_impl; [exact Hy|]. unfold key_le. intros z Hz.
    rewrite <- Ek. by eapply Qlt_le_trans.
  - rewrite (with_key_cons k y), (with_key_cons k y s), IH by done.
    by rewrite app_assoc.
Qed.

Lemma stable_sort_from l : forall acc,
  sorted_asc key acc ->
  let s := fold_left (fun s x => insert_sorted key x s) l acc in
  sorted_asc key s /\ s ≡ₚ acc ++ l /\
  forall k, with_key key k s = with_key key k acc ++ with_key key k l.
Proof.
  induction l as [|x l IH]; intros acc Hacc; cbn [fold_left].
  - rewrite app_nil_r. split_and!; [done..|].
    intros k. by rewrite app_nil_r.
  - destruct (IH (insert_sorted key x acc)) as (H1 & H2 & H3);
      [by apply insert_sorted_asc|].
    split_and!; [done| |].
    + rewrite H2, insert_sorted_perm. simpl. apply Permutation_middle.
    + intros k. rewrite H3, with_key_insert_sorted by done.
      by rewrite (with_key_cons k x l), app_assoc.
Qed.

Lemma stable_sort_asc l : sorted_asc key (stable_sort key l).
Proof. apply (stable_sort_from l []). constructor. Qed.

Lemma stable_sort_perm l : stable_sort key l ≡ₚ l.
Proof. apply (stable_sort_from l []). constructor. Qed.

Lemma stable_sort_ties l : keeps_ties key l (stable_sort key l).
Proof. intros k. apply (stable_sort_from l []). constructor. Qed.

Lemma sorted_asc_rev s : sorted_asc key s -> sorted_desc key (rev s).
Proof.
  unfold sorted_asc, sorted_desc. induction 1 as [|x s Hs IH Hx]; simpl.
  - constructor.
  - apply StronglySorted_app. split_and!; [|done|repeat constructor].
    intros y z Hy Hz. apply list_elem_of_singleton in Hz as ->.
    apply list_elem_of_In, in_rev, list_elem_of_In in Hy.
    rewrite Forall_forall in Hx. by apply Hx.
Qed.

(** [list.sort(key=key, reverse=True)]: descending, a rearrangement of
    its input, ties in input order. *)
Lemma list_sort_reverse_desc l : sorted_desc key (list_sort key true l).
Proof. apply sorted_asc_rev, stable_sort_asc. Qed.

Lemma list_sort_reverse_perm l : list_sort key true l ≡ₚ l.
Proof.
  unfold list_sort.
  by rewrite <- Permutation_rev, stable_sort_perm, <- Permutation_rev.
Qed.

Lemma list_sort_reverse_ties l : keeps_ties key l (list_sort key true l).
Proof.
  intros k. unfold list_sort.
  by rewrite with_key_rev, stable_sort_ties, with_key_rev, rev_involutive.
Qed.

Lemma with_key_head x l :
  with_key key (key x) (x :: l) = x :: with_key key (key x) l.
Proof.
  unfold with_key. simpl.
  by rewrite (proj2 (Qeq_bool_iff (key x) (key x)) (Qeq_refl _)).
Qed.

(** A descending list is determined by the elements of each key, taken
    in order: two stable descending sorts of one list agree. *)
Lemma sorted_desc_ties_unique l1 : forall l2,
  sorted_desc key l1 -> sorted_desc key l2 ->
  (forall k, with_key key k l1 = with_key key k l2) -> l1 = l2.
Proof.
  unfold sorted_desc.
  induction l1 as [|a t1 IH]; intros [|b t2] H1 H2 H; [done|..].
  - specialize (H (key b)). by rewrite with_key_head in H.
  - specialize (H (key a)). by rewrite with_key_head in H.
  - apply StronglySorted_cons in H1 as [Ha H1].
    apply StronglySorted_cons in H2 as [Hb H2].
    rewrite Forall_forall in Ha, Hb.
    assert (Hab : (key a == key b)%Q).
    { destruct (Qcompare_spec (key a) (key b)) as [E|E|E]; [done|..].
      - assert (Hin : In b (with_key key (key b) (a :: t1))).
        { rewrite H, with_key_head. by left. }
        apply in_with_key in Hin as [[->|Hin] _].
        + by apply Qlt_irrefl in E.
        + apply list_elem_of_In, Ha in Hin. unfold key_ge in Hin.
          exfalso. eapply Qlt_not_le; eauto.
      - assert (Hin : In a (with_key key (key a) (b :: t2))).
        { rewrite <- H, with_key_head. by left. }
        apply in_with_key in Hin as [[->|Hin] _].
        + by apply Qlt_irrefl in E.
        + apply list_elem_of_In, Hb in Hin. unfold key_ge in Hin.
          exfalso. eapply Qlt_not_le; eauto. }
    assert (a = b) as <-.
    { specialize (H (key a)). rewrite with_key_head in H.
      unfold with_key in H. simpl in H.
      rewrite (proj2 (Qeq_bool_iff (key b) (key a))) in H
        by (by symmetry).
      congruence. }
    f_equal. apply IH; [done..|]. intros k. specialize (H k).
    rewrite (with_key_cons k a t1), (with_key_cons k a t2) in H.
    by apply app_inv_head in H.
Qed.

Lemma insert_desc_perm x s : insert_desc key x s ≡ₚ x :: s.
Proof.
  induction s as [|y s IH]; simpl; [done|].
  destruct (key_lt key x y); [|done].
  rewrite IH. apply perm_swap.
Qed.

Lemma insert_desc_sorted x s :
  sorted_desc key s -> sorted_desc key (insert_desc key x s).
Proof.
  unfold sorted_desc. induction s as [|y s IH]; simpl; intros Hs.
  - repeat constructor.
  - apply StronglySorted_cons in Hs as [Hy Hs].
    destruct (key_lt key x y) eqn:E.
    + apply key_lt_true in E. constructor; [by apply IH|].
      rewrite insert_desc_perm. constructor; [|done].
      unfold key_ge. by apply Qlt_le_weak.
    + apply key_lt_false in E. constructor; [by constructor|].
      constructor; [done|].
      eapply Forall_impl; [exact Hy|]. unfold key_ge. intros z Hz.
      by eapply Qle_trans.
Qed.

Lemma with_key_insert_desc k x s :
  with_key key k (insert_desc key x s)
  = with_key key k [x] ++ with_key key k s.
Proof.
  induction s as [|y s IH]; [symmetry; apply app_nil_r|].
  cbn [insert_desc].
  destruct (key_lt key x y) eqn:E; [|apply with_key_cons].
  apply key_lt_true in E.
  rewrite (with_key_cons k y), IH, (with_key_cons k y s).
  unfold with_key at 1 3 4. simpl.
  destruct (Qeq_bool (key x) k) eqn:Ex; [|done].
  destruct (Qeq_bool (key y) k) eqn:Ey; [|done].
  apply Qeq_bool_iff in Ex, Ey. rewrite Ex, Ey in E.
  by apply Qlt_irrefl in E.
Qed.

Lemma spec_sort_desc_sorted l : sorted_desc key (spec_sort_desc key l).
Proof.
  induction l as [|x l IH]; simpl; [constructor|].
  by apply insert_desc_sorted.
Qed.

Lemma spec_sort_desc_ties l : keeps_ties key l (spec_sort_desc key l).
Proof.
  intros k. induction l as [|x l IH]; [done|].
  cbn [spec_sort_desc fold_right].
  rewrite with_key_insert_desc. fold (spec_sort_desc key l).
  by rewrite IH, <- with_key_cons.
Qed.

(** The sort of the code is the sort of the specification. *)
Lemma list_sort_reverse_spec l :
  list_sort key true l = spec_sort_desc key l.
Proof.
  apply sorted_desc_ties_unique.
  - apply list_sort_reverse_desc.
  - apply spec_sort_desc_sorted.
  - intros k. by rewrite list_sort_reverse_ties, spec_sort_desc_ties.
Qed.

(** On a descending list, positions are ordered by key. *)
Lemma sorted_desc_lookup l i j x y :
  sorted_desc key l -> i < j -> l !! i = Some x -> l !! j = Some y ->
  (key y <= key x)%Q.
Proof.
  unfold sorted_desc. intros Hl. revert i j.
  induction Hl as [|a l Hl IH Ha]; intros i j Hij Hi Hj; [done|].
  destruct j as [|j]; [lia|]. simpl in Hj.
  destruct i as [|i]; simpl in Hi.
  - injection Hi as ->. rewrite Forall_forall in Ha.
    apply Ha. by eapply list_elem_of_lookup_2.
  - apply (IH i j); [lia|done..].
Qed.

Lemma sorted_desc_sublist l1 l2 :
  l1 `sublist_of` l2 -> sorted_desc key l2 -> sorted_desc key l1.
Proof.
  unfold sorted_desc. induction 1 as [|x l1 l2 Hs IH|x l1 l2 Hs IH];
    intros H2; [done|..].
  - apply StronglySorted_cons in H2 as [Hx H2].
    constructor; [by apply IH|].
    rewrite Forall_forall in *. intros y Hy. apply Hx.
    by eapply elem_of_sublist.
  - apply StronglySorted_cons in H2 as [_ H2]. by apply IH.
Qed.

(** With pairwise different keys there is one descending order. *)
Definition strictly_desc (l : list A) : Prop :=
  StronglySorted (fun x y => (key y < key x)%Q) l.

Lemma strictly_desc_key_inj l x y :
  strictly_desc l -> x ∈ l -> y ∈ l -> (key x == key y)%Q -> x = y.
Proof.
  unfold strictly_desc. induction 1 as [|a t Ht IH Ha]; [by intros ?%elem_of_nil|].
  rewrite Forall_forall in Ha.
  intros [->|Hx]%elem_of_cons [->|Hy]%elem_of_cons E; [done|..].
  - apply Ha in Hy. rewrite E in Hy. by apply Qlt_irrefl in Hy.
  - apply Ha in Hx. rewrite E in Hx. by apply Qlt_irrefl in Hx.
  - by apply IH.
Qed.

Lemma strictly_desc_sorted l : strictly_desc l -> sorted_desc key l.
Proof.
  unfold strictly_desc, sorted_desc. induction 1 as [|a t Ht IH Ha];
    constructor; [done|].
  eapply Forall_impl; [exact Ha|]. intros z Hz. by apply Qlt_le_weak.
Qed.

Lemma list_sort_reverse_strict l1 l2 :
  l1 ≡ₚ l2 -> strictly_desc l2 -> list_sort key true l1 = l2.
Proof.
  intros Hp Hs. apply (StronglySorted_unique_strong (key_ge key)).
  - intros x1 x2 H1 H2 R12 R21.
    rewrite list_sort_reverse_perm, Hp in H1.
    apply (strictly_desc_key_inj l2); [done..|]. by apply Qle_antisym.
  - apply list_sort_reverse_desc.
  - by apply strictly_desc_sorted.
  - by rewrite list_sort_reverse_perm.
Qed.
End ListSortFacts.

(** ** The builder *)
Section TravelerFacts.
Variable jurisdictions : gmap string (list POI).
Variable is_valid_route : POI -> list POI -> bool.

Local Abbreviation step := (try_poi is_valid_route).
Local Abbreviation step_uncapped := (try_poi_uncapped is_valid_route).
Local Abbreviation route := (high_value_strategy jurisdictions is_valid_route).
Local Abbreviation candidates := (spec_candidates jurisdictions).

Lemma high_value_strategy_unfold sp :
  route sp
  = fold_left (step sp) (list_sort fee_value true (candidates sp)) [].
Proof. reflexivity. Qed.

(** The loop only ever appends: its result is the list it started from
    followed by candidates taken in order. *)
Lemma select_loop_sublist sp cands : forall acc,
  exists rest, fold_left (step sp) cands acc = acc ++ rest
               /\ rest `sublist_of` cands.
Proof.
  induction cands as [|c cands IH]; intros acc; cbn [fold_left].
  - exists []. by rewrite app_nil_r.
  - destruct (IH (step sp acc c)) as (rest & -> & Hrest).
    unfold try_poi. cbv zeta.
    destruct (_ && _).
    + exists (c :: rest). rewrite <- app_assoc. split; [done|].
      by apply sublist_skip.
    + exists rest. split; [done|]. by apply sublist_cons.
Qed.

Lemma select_loop_length sp cands : forall acc,
  length acc <= 8 -> length (fold_left (step sp) cands acc) <= 8.
Proof.
  induction cands as [|c cands IH]; intros acc Hacc; cbn [fold_left]; [done|].
  apply IH. unfold try_poi. cbv zeta.
  destruct (length (acc ++ [c]) <=? 8) eqn:E; simpl; [|done].
  apply Nat.leb_le in E. by destruct (is_valid_route _ _).
Qed.

(** Whatever the loop returns was accepted by the validator, unless it is
    what the loop started from. *)
Lemma select_loop_accepted sp cands : forall acc,
  acc = [] \/ is_valid_route sp acc = true ->
  fold_left (step sp) cands acc = []
  \/ is_valid_route sp (fold_left (step sp) cands acc) = true.
Proof.
  induction cands as [|c cands IH]; intros acc Hacc; cbn [fold_left]; [done|].
  apply IH. unfold try_poi. cbv zeta.
  destruct (length (acc ++ [c]) <=? 8); simpl; [|done].
  destruct (is_valid_route sp (acc ++ [c])) eqn:E; [by right|done].
Qed.

Lemma route_accepted sp :
  route sp = [] \/ is_valid_route sp (route sp) = true.
Proof. apply select_loop_accepted. by left. Qed.

Lemma select_loop_spec_scan sp cands : forall acc,
  fold_left (step sp) cands acc = spec_scan is_valid_route sp acc cands.
Proof.
  induction cands as [|c cands IH]; intros acc; cbn [fold_left spec_scan];
    [done|].
  rewrite IH. unfold try_poi. cbv zeta.
  by destruct (_ && _).
Qed.

(** Capped and uncapped loops move in step: the capped state is the first
    eight stops of the uncapped one. *)
Lemma select_loop_take sp cands : forall acc,
  fold_left (step sp) cands (take 8 acc)
  = take 8 (fold_left (step_uncapped sp) cands acc).
Proof.
  induction cands as [|c cands IH]; intros acc; cbn [fold_left]; [done|].
  rewrite <- IH. f_equal.
  unfold try_poi, try_poi_uncapped. cbv zeta.
  destruct (decide (length acc < 8)) as [Hlt|Hge].
  - rewrite (take_ge acc) by lia.
    replace (length (acc ++ [c]) <=? 8) with true
      by (symmetry; apply Nat.leb_le; rewrite length_app; simpl; lia).
    simpl. destruct (is_valid_route sp (acc ++ [c])).
    + rewrite take_ge; [done|]. rewrite length_app. simpl. lia.
    + by rewrite take_ge by lia.
  - replace (length (take 8 acc ++ [c]) <=? 8) with false.
    2:{ symmetry. apply Nat.leb_gt.
        rewrite length_app, length_take. cbn [length]. lia. }
    simpl. destruct (is_valid_route sp (acc ++ [c])); [|done].
    by rewrite take_app_le by lia.
Qed.


Lemma filter_all {A} (f : A -> bool) (l : list A) :
  (forall x, x ∈ l -> f x = true) -> List.filter f l = l.
Proof.
  induction l as [|x l IH]; intros H; simpl; [done|].
  rewrite (H x) by left. f_equal. apply IH. intros y Hy. apply H. by right.
Qed.

Lemma filter_sublist {A} (f : A -> bool) (l : list A) :
  List.filter f l `sublist_of` l.
Proof.
  induction l as [|x l IH]; simpl; [done|].
  destruct (f x); by constructor.
Qed.

Lemma Forall_of_sublist {A} (P : A -> Prop) (l1 l2 : list A) :
  l1 `sublist_of` l2 -> Forall P l2 -> Forall P l1.
Proof.
  intros Hs. rewrite !Forall_forall. intros H x Hx. apply H.
  by eapply elem_of_sublist.
Qed.

(** The route is made of candidates, in the order of the sorted list. *)
Lemma route_sublist_sorted sp :
  route sp
  `sublist_of` list_sort fee_value true (candidates sp).
Proof.
  rewrite high_value_strategy_unfold.
  by destruct (select_loop_sublist sp
    (list_sort fee_value true (candidates sp)) []) as (rest & -> & H).
Qed.

(** Over a well-formed index the candidates lie in the starting point's
    jurisdiction and carry pairwise different ids; so does the route. *)
Lemma candidates_wf sp :
  index_wf jurisdictions ->
  Forall (fun poi => jurisdiction poi = jurisdiction sp) (candidates sp)
  /\ NoDup (map id (candidates sp)).
Proof.
  intros Hwf. unfold spec_candidates.
  destruct (jurisdictions !! jurisdiction sp) as [pois|] eqn:E;
    simpl; [|split; constructor].
  destruct (Hwf _ _ E) as [Hj Hid]. split.
  - eapply Forall_of_sublist; [|exact Hj]. apply filter_sublist.
  - eapply sublist_NoDup; [exact Hid|].
    apply (fmap_sublist id), filter_sublist.
Qed.

Lemma route_local sp :
  index_wf jurisdictions ->
  Forall (fun poi => jurisdiction poi = jurisdiction sp) (route sp).
Proof.
  intros Hwf. eapply Forall_of_sublist; [apply route_sublist_sorted|].
  rewrite list_sort_reverse_perm. by apply candidates_wf.
Qed.

Lemma route_distinct sp :
  index_wf jurisdictions -> NoDup (map id (route sp)).
Proof.
  intros Hwf.
  eapply sublist_NoDup;
    [|apply (fmap_sublist id), route_sublist_sorted].
  change (NoDup (id <$> list_sort fee_value true (candidates sp))).
  rewrite list_sort_reverse_perm. by apply candidates_wf.
Qed.

Lemma route_length sp : length (route sp) <= 8.
Proof. apply select_loop_length. simpl. lia. Qed.

(** The driver is a [map]. *)
Lemma build_paths_map sps :
  build_paths jurisdictions is_valid_route sps = map route sps.
Proof.
  unfold build_paths.
  enough (H : forall acc,
    fold_left (fun paths ele => paths ++ [route ele]) sps acc
    = acc ++ map route sps) by apply (H []).
  induction sps as [|sp sps IH]; intros acc; simpl.
  - by rewrite app_nil_r.
  - by rewrite IH, <- app_assoc.
Qed.

(** Over a well-formed index every route of a run stays in one
    jurisdiction. *)
Lemma build_paths_one_jurisdiction sps :
  index_wf jurisdictions ->
  Forall one_jurisdiction (build_paths jurisdictions is_valid_route sps).
Proof.
  intros Hwf. rewrite build_paths_map. apply Forall_forall.
  intros r (sp & -> & _)%list_elem_of_fmap p q Hp Hq.
  pose proof (route_local sp Hwf) as H. rewrite Forall_forall in H.
  rewrite (H p), (H q); [done|by apply list_elem_of_In..].
Qed.
End TravelerFacts.

(** ** The claims about the builder *)

(** C1: for every starting point the builder returns the route of the
    specified procedure: the POIs of the starting point's jurisdiction,
    without those carrying the starting point's id, sorted by [fee_value]
    descending, scanned once in order, a candidate being accepted exactly
    when the route extended by it has at most 8 stops and the validator
    accepts it. *)
Theorem high_value_strategy_refines_spec
    (jurisdictions : gmap string (list POI))
    (is_valid_route : POI -> list POI -> bool) (starting_point : POI) :
  high_value_strategy jurisdictions is_valid_route starting_point
  = spec_route jurisdictions is_valid_route starting_point.
Proof.
  rewrite high_value_strategy_unfold, select_loop_spec_scan.
  by rewrite list_sort_reverse_spec.
Qed.

(** C2: over an index that files every POI under its own jurisdiction and
    holds no POI id twice, the route has at most 8 stops, no two stops
    with the same id, and only stops of the starting point's
    jurisdiction. *)
Theorem route_bounded_distinct_local
    (jurisdictions : gmap string (list POI))
    (is_valid_route : POI -> list POI -> bool) (starting_point : POI) :
  index_wf jurisdictions ->
  let route :=
    high_value_strategy jurisdictions is_valid_route starting_point in
  length route <= 8
  /\ NoDup (map id route)
  /\ Forall (fun poi => jurisdiction poi = jurisdiction starting_point) route.
Proof.
  intros Hwf route. split_and!.
  - apply route_length.
  - by apply route_distinct.
  - by apply route_local.
Qed.

Lemma day1_index_wf : index_wf Day1.index.
Proof.
  intros j pois H. unfold Day1.index in H.
  apply lookup_singleton_Some in H as [<- <-].
  split; [by repeat constructor|].
  apply (bool_decide_unpack _). by vm_compute.
Defined.

Lemma route_bounded_distinct_local_witness :
  index_wf Day1.index
  /\ length (high_value_strategy Day1.index Day1.all_feasible
              Day1.starting_point) <= 8
  /\ NoDup (map id (high_value_strategy Day1.index Day1.all_feasible
                      Day1.starting_point))
  /\ Forall (fun poi => jurisdiction poi = "J5")
       (high_value_strategy Day1.index Day1.all_feasible Day1.starting_point).
Proof.
  split; [exact day1_index_wf|].
  exact (route_bounded_distinct_local Day1.index Day1.all_feasible
           Day1.starting_point day1_index_wf).
Defined.

(** C4: when the starting point's jurisdiction is missing from the index,
    or has no candidate POI, the builder returns the empty route, and the
    run over all starting points carries on: the day gets the empty route
    and the other days the routes they would have had anyway. *)
Theorem unknown_jurisdiction_empty_route
    (jurisdictions : gmap string (list POI))
    (is_valid_route : POI -> list POI -> bool) (starting_point : POI) :
  jurisdictions !! jurisdiction starting_point = None
  \/ spec_candidates jurisdictions starting_point = [] ->
  high_value_strategy jurisdictions is_valid_route starting_point = []
  /\ forall before after,
       build_paths jurisdictions is_valid_route
         (before ++ starting_point :: after)
       = build_paths jurisdictions is_valid_route before
         ++ [] :: build_paths jurisdictions is_valid_route after.
Proof.
  intros H.
  assert (Hc : spec_candidates jurisdictions starting_point = []).
  { destruct H as [H|H]; [|done]. unfold spec_candidates. by rewrite H. }
  assert (Hr : high_value_strategy jurisdictions is_valid_route starting_point
               = []).
  { by rewrite high_value_strategy_unfold, Hc. }
  split; [done|]. intros before after.
  rewrite !build_paths_map, map_app. simpl. by rewrite Hr.
Qed.

Lemma unknown_jurisdiction_empty_route_witness :
  (Day1.index !! jurisdiction Day1.day2_starting_point = None
   \/ spec_candidates Day1.index Day1.day2_starting_point = [])
  /\ high_value_strategy Day1.index Day1.all_feasible
       Day1.day2_starting_point = []
  /\ forall before after,
       build_paths Day1.index Day1.all_feasible
         (before ++ Day1.day2_starting_point :: after)
       = build_paths Day1.index Day1.all_feasible before
         ++ [] :: build_paths Day1.index Day1.all_feasible after.
Proof.
  assert (H : Day1.index !! jurisdiction Day1.day2_starting_point = None)
    by (by vm_compute).
  split; [by left|].
  exact (unknown_jurisdiction_empty_route Day1.index Day1.all_feasible
           Day1.day2_starting_point (or_introl H)).
Defined.

(** C5: the builder is deterministic.  The candidate order is fixed by
    the dataset: the sorted candidates are a rearrangement of the
    candidates with non-increasing [fee_value] in which candidates of
    equal [fee_value] stand in their dataset order, and no other list has
    these properties.  The route is a function of the dataset entry of the
    starting point's jurisdiction, of the starting point and of the
    validator's answers for it, and of nothing else. *)
Theorem high_value_strategy_deterministic
    (jurisdictions : gmap string (list POI))
    (is_valid_route : POI -> list POI -> bool) (starting_point : POI) :
  let candidates := spec_candidates jurisdictions starting_point in
  let sorted := list_sort fee_value true candidates in
  (sorted ≡ₚ candidates
   /\ sorted_desc fee_value sorted
   /\ keeps_ties fee_value candidates sorted)
  /\ (forall sorted', sorted_desc fee_value sorted' ->
        keeps_ties fee_value candidates sorted' -> sorted' = sorted)
  /\ (forall jurisdictions' is_valid_route',
        jurisdictions' !! jurisdiction starting_point
        = jurisdictions !! jurisdiction starting_point ->
        (forall route, is_valid_route' starting_point route
                       = is_valid_route starting_point route) ->
        high_value_strategy jurisdictions' is_valid_route' starting_point
        = high_value_strategy jurisdictions is_valid_route starting_point).
Proof.
  intros candidates sorted. split_and!.
  - apply list_sort_reverse_perm.
  - apply list_sort_reverse_desc.
  - apply list_sort_reverse_ties.
  - intros sorted' Hd Ht.
    apply (sorted_desc_ties_unique fee_value); [done|..].
    + apply list_sort_reverse_desc.
    + intros k. rewrite Ht. symmetry. apply list_sort_reverse_ties.
  - intros jurisdictions' is_valid_route' Hj Hv.
    rewrite !high_value_strategy_unfold. unfold spec_candidates.
    rewrite Hj.
    generalize (list_sort fee_value true
      (List.filter (fun poi => negb (id poi =? id starting_point)%Z)
         (default [] (jurisdictions !! jurisdiction starting_point)))).
    intros l. generalize (@nil POI).
    induction l as [|c l IH]; intros acc; cbn [fold_left]; [done|].
    rewrite IH. f_equal. unfold try_poi. cbv zeta. by rewrite Hv.
Qed.

(** C6: the route is ordered by non-increasing [fee_value]: a stop never
    has a smaller [fee_value] than a later one. *)
Theorem route_fee_non_increasing
    (jurisdictions : gmap string (list POI))
    (is_valid_route : POI -> list POI -> bool) (starting_point : POI)
    (i j : nat) (p q : POI) :
  i < j ->
  high_value_strategy jurisdictions is_valid_route starting_point !! i
  = Some p ->
  high_value_strategy jurisdictions is_valid_route starting_point !! j
  = Some q ->
  (fee_value q <= fee_value p)%Q.
Proof.
  apply sorted_desc_lookup.
  eapply sorted_desc_sublist; [apply route_sublist_sorted|].
  apply list_sort_reverse_desc.
Qed.

Lemma route_fee_non_increasing_witness :
  0 < 1
  /\ high_value_strategy Day1.index Day1.all_feasible Day1.starting_point
     !! 0 = Some Day1.swimming_pool
  /\ high_value_strategy Day1.index Day1.all_feasible Day1.starting_point
     !! 1 = Some Day1.sports_centre
  /\ (fee_value Day1.sports_centre <= fee_value Day1.swimming_pool)%Q.
Proof.
  assert (H0 : high_value_strategy Day1.index Day1.all_feasible
                 Day1.starting_point !! 0 = Some Day1.swimming_pool)
    by (vm_compute; reflexivity).
  assert (H1 : high_value_strategy Day1.index Day1.all_feasible
                 Day1.starting_point !! 1 = Some Day1.sports_centre)
    by (vm_compute; reflexivity).
  split; [lia|]. split; [exact H0|]. split; [exact H1|].
  exact (route_fee_non_increasing Day1.index Day1.all_feasible
           Day1.starting_point 0 1 _ _ (Nat.lt_0_1) H0 H1).
Defined.

(** C8: dropping the 8-stop cap never shrinks the route: the capped route
    is the beginning of the uncapped one, namely its first 8 stops. *)
Theorem uncapped_extends_capped
    (jurisdictions : gmap string (list POI))
    (is_valid_route : POI -> list POI -> bool) (starting_point : POI) :
  high_value_strategy jurisdictions is_valid_route starting_point
  `prefix_of`
  high_value_strategy_uncapped jurisdictions is_valid_route starting_point
  /\ high_value_strategy jurisdictions is_valid_route starting_point
     = take 8 (high_value_strategy_uncapped jurisdictions is_valid_route
                 starting_point).
Proof.
  assert (H : high_value_strategy jurisdictions is_valid_route starting_point
     = take 8 (high_value_strategy_uncapped jurisdictions is_valid_route
                 starting_point)).
  { unfold high_value_strategy, high_value_strategy_uncapped. cbv zeta.
    rewrite <- select_loop_take. done. }
  split; [|done]. rewrite H. apply prefix_take.
Qed.



(** ** The table *)

Lemma has_underscore_app s1 s2 :
  has_underscore (s1 +:+ s2) = has_underscore s1 || has_underscore s2.
Proof.
  induction s1 as [|c s1 IH]; simpl; [done|].
  by rewrite IH, orb_assoc.
Qed.

Lemma has_underscore_digits (d : Decimal.uint) :
  has_underscore (NilEmpty.string_of_uint d) = false.
Proof. induction d; simpl; done. Qed.

Lemma after_last_underscore_app s d :
  has_underscore d = false -> after_last_underscore (s +:+ "_" +:+ d) = d.
Proof.
  intros Hd.
  assert (Hu : forall s', has_underscore (s' +:+ "_" +:+ d) = true).
  { intros s'. rewrite has_underscore_app.
    change (has_underscore ("_" +:+ d)) with true. apply orb_true_r. }
  induction s as [|c s IH].
  - change (after_last_underscore (String "_" d) = d).
    cbn [after_last_underscore]. by rewrite Hd.
  - change (after_last_underscore (String c (s +:+ "_" +:+ d)) = d).
    cbn [after_last_underscore]. by rewrite Hu, andb_false_r.
Qed.

Lemma str_inj n m : str n = str m -> n = m.
Proof.
  unfold str. intros H. apply Unsigned.to_uint_inj.
  apply (f_equal NilEmpty.uint_of_string) in H.
  rewrite !NilEmpty.usu in H. congruence.
Qed.

(** A [route_id] determines its day, whatever the jurisdiction tags. *)
Lemma route_id_of_day j i j' i' :
  route_id_of j i = route_id_of j' i' -> i = i'.
Proof.
  unfold route_id_of. intros H. apply str_inj.
  apply (f_equal after_last_underscore) in H.
  change ("R_" +:+ j +:+ "_" +:+ str i)
    with (("R_" +:+ j) +:+ "_" +:+ str i) in H.
  change ("R_" +:+ j' +:+ "_" +:+ str i')
    with (("R_" +:+ j') +:+ "_" +:+ str i') in H.
  by rewrite !after_last_underscore_app in H
    by apply has_underscore_digits.
Qed.

Lemma inner_loop (route_idx : nat) (route : list POI) : forall n flat,
  fold_left
    (fun flat (stop : nat * POI) =>
       let (poi_idx, poi) := stop in
       flat ++ [make_row route_idx poi_idx poi])
    (enumerate_from n route) flat
  = flat ++ imap (fun k poi => make_row route_idx (n + k) poi) route.
Proof.
  induction route as [|poi route IH]; intros n flat; simpl.
  - by rewrite app_nil_r.
  - rewrite IH, <- app_assoc, Nat.add_0_r. simpl. do 2 f_equal.
    apply imap_ext. intros k x _. simpl. f_equal. lia.
Qed.

Lemma outer_loop (paths : list (list POI)) : forall n flat,
  fold_left
    (fun flat (entry : nat * list POI) =>
       let (route_idx, poi_list) := entry in
       fold_left
         (fun flat (stop : nat * POI) =>
            let (poi_idx, poi) := stop in
            flat ++ [make_row route_idx poi_idx poi])
         (enumerate poi_list) flat)
    (enumerate_from n paths) flat
  = flat ++ rows_from n paths.
Proof.
  induction paths as [|route paths IH]; intros n flat; simpl.
  - by rewrite app_nil_r.
  - unfold enumerate at 2. rewrite inner_loop, IH, <- app_assoc. done.
Qed.

Lemma flat_data_rows_from (paths : list (list POI)) :
  flat_data paths = rows_from 0 paths.
Proof. apply (outer_loop paths 0 []). Qed.

Lemma rows_from_concat (paths : list (list POI)) : forall n,
  rows_from n paths
  = concat (imap (fun i route => rows_of_route (n + i) route) paths).
Proof.
  induction paths as [|route paths IH]; intros n; simpl; [done|].
  rewrite Nat.add_0_r, IH. do 2 f_equal.
  apply imap_ext. intros i x _. simpl. f_equal. lia.
Qed.

(** Grouping, one row at a time. *)
Lemma group_append_fresh (r : TableRow.t) (gs : list (string * list TableRow.t)) :
  Forall (fun g => fst g <> TableRow.route_id r) gs ->
  group_append r gs = gs ++ [(TableRow.route_id r, [r])].
Proof.
  induction 1 as [|[k rows] gs Hk _ IH]; simpl; [done|].
  simpl in Hk. apply String.eqb_neq in Hk. by rewrite Hk, IH.
Qed.

Lemma group_append_last (r : TableRow.t) (gs : list (string * list TableRow.t))
    (rows : list TableRow.t) :
  Forall (fun g => fst g <> TableRow.route_id r) gs ->
  group_append r (gs ++ [(TableRow.route_id r, rows)])
  = gs ++ [(TableRow.route_id r, rows ++ [r])].
Proof.
  induction 1 as [|[k rows'] gs Hk _ IH]; simpl.
  - by rewrite String.eqb_refl.
  - simpl in Hk. apply String.eqb_neq in Hk. by rewrite Hk, IH.
Qed.

Lemma regroup_same_key (k : string) (gs : list (string * list TableRow.t))
    (rows : list TableRow.t) : forall pre,
  Forall (fun g => fst g <> k) gs ->
  Forall (fun r => TableRow.route_id r = k) rows ->
  fold_left (fun groups r => group_append r groups) rows (gs ++ [(k, pre)])
  = gs ++ [(k, pre ++ rows)].
Proof.
  induction rows as [|r rows IH]; intros pre Hgs Hrows; simpl.
  - by rewrite app_nil_r.
  - apply Forall_cons in Hrows as [<- Hrows].
    rewrite group_append_last, IH by done. by rewrite <- app_assoc.
Qed.

Lemma regroup_one_route (k : string) (gs : list (string * list TableRow.t))
    (r : TableRow.t) (rows : list TableRow.t) :
  Forall (fun g => fst g <> k) gs ->
  Forall (fun r => TableRow.route_id r = k) (r :: rows) ->
  fold_left (fun groups r => group_append r groups) (r :: rows) gs
  = gs ++ [(k, r :: rows)].
Proof.
  intros Hgs [<- Hrows]%Forall_cons. simpl.
  rewrite group_append_fresh by done. by rewrite regroup_same_key.
Qed.

Lemma rows_of_route_key (n : nat) (j : string) (route : list POI) :
  Forall (fun poi => jurisdiction poi = j) route ->
  Forall (fun r => TableRow.route_id r = route_id_of j n) (rows_of_route n route).
Proof.
  rewrite !Forall_forall. intros H r (k & poi & -> & Hk)%elem_of_lookup_imap.
  simpl. unfold route_id_of. rewrite (H poi); [done|].
  by eapply list_elem_of_lookup_2.
Qed.

Lemma one_jurisdiction_head (poi : POI) (route : list POI) :
  one_jurisdiction (poi :: route) ->
  Forall (fun q => jurisdiction q = jurisdiction poi) (poi :: route).
Proof.
  intros H. apply Forall_forall. intros q Hq%list_elem_of_In.
  apply H; [done|by left].
Qed.

(** The rows of a run whose routes each stay in one jurisdiction fall
    into one group per day that has a stop, in day order. *)
Lemma regroup_rows_from (paths : list (list POI)) : forall n gs,
  Forall one_jurisdiction paths ->
  Forall (day_before n) gs ->
  fold_left (fun groups r => group_append r groups) (rows_from n paths) gs
  = gs ++ groups_from n paths.
Proof.
  induction paths as [|route paths IH]; intros n gs Hp Hgs; simpl.
  - by rewrite app_nil_r.
  - apply Forall_cons in Hp as [Hroute Hp].
    assert (Hnext : forall gs', Forall (day_before n) gs' ->
                                Forall (day_before (S n)) gs').
    { intros gs' H. eapply Forall_impl; [exact H|].
      intros g (j & i & E & Hi).
      exists j, i. split; [done|lia]. }
    rewrite fold_left_app. destruct route as [|poi route].
    + simpl. by apply IH, Hnext.
    + pose proof (rows_of_route_key n _ _ (one_jurisdiction_head _ _ Hroute))
        as Hkey.
      change (rows_of_route n (poi :: route))
        with (make_row n 0 poi
              :: imap ((fun k q => make_row n k q) ∘ S) route) in *.
      rewrite (regroup_one_route (route_id_of (jurisdiction poi) n)).
      * rewrite IH; [by rewrite <- app_assoc|done|].
        apply Forall_app. split; [by apply Hnext|].
        constructor; [|done]. exists (jurisdiction poi), n. split; [done|lia].
      * eapply Forall_impl; [exact Hgs|]. intros g (j & i & E & Hi) Heq.
        rewrite E in Heq. apply route_id_of_day in Heq. lia.
      * done.
Qed.

Lemma regroup_flat_data (paths : list (list POI)) :
  Forall one_jurisdiction paths ->
  regroup (flat_data paths) = groups_from 0 paths.
Proof.
  intros Hp. unfold regroup. rewrite flat_data_rows_from.
  by rewrite regroup_rows_from.
Qed.

Lemma stops_of_rows (n : nat) (route : list POI) :
  map stop_of_row (rows_of_route n route) = map stop_of_poi route.
Proof.
  unfold rows_of_route.
  change (stop_of_row <$> imap (fun k poi => make_row n k poi) route
          = stop_of_poi <$> route).
  rewrite fmap_imap. rewrite <- (imap_const stop_of_poi). by apply imap_ext.
Qed.

Lemma groups_from_routes (paths : list (list POI)) : forall n,
  map (fun g => map stop_of_row (snd g)) (groups_from n paths)
  = original_routes (List.filter has_stops paths).
Proof.
  induction paths as [|[|poi route] paths IH]; intros n; simpl; [done|..].
  - apply IH.
  - rewrite IH. f_equal. apply (stops_of_rows n (poi :: route)).
Qed.

Lemma filter_has_stops_all (paths : list (list POI)) :
  Forall (fun route => route <> []) paths ->
  List.filter has_stops paths = paths.
Proof.
  intros H. apply filter_all. rewrite Forall_forall in H.
  intros [|poi route] Hin; [by apply H in Hin|done].
Qed.

Lemma filter_has_stops_length (paths : list (list POI)) :
  In [] paths -> length (List.filter has_stops paths) < length paths.
Proof.
  induction paths as [|route paths IH]; simpl; [done|].
  pose proof (List.filter_length_le has_stops paths) as Hle.
  intros [->|Hin]; simpl; [lia|].
  specialize (IH Hin). destruct (has_stops route); simpl; lia.
Qed.

Lemma regrouped_routes_flat_data (paths : list (list POI)) :
  Forall one_jurisdiction paths ->
  regrouped_routes (flat_data paths)
  = original_routes (List.filter has_stops paths).
Proof.
  intros Hp. unfold regrouped_routes.
  by rewrite regroup_flat_data, groups_from_routes.
Qed.

Lemma flat_data_concat (paths : list (list POI)) :
  flat_data paths = concat (imap rows_of_route paths).
Proof. by rewrite flat_data_rows_from, rows_from_concat. Qed.

Lemma day1_pool_one_jurisdiction : one_jurisdiction Day1.pool.
Proof.
  intros p q Hp Hq. unfold Day1.pool in *. simpl in Hp, Hq.
  destruct Hp as [<-|[<-|[<-|[<-|[]]]]];
    destruct Hq as [<-|[<-|[<-|[<-|[]]]]]; reflexivity.
Defined.

Lemma day1_paths_one_jurisdiction : Forall one_jurisdiction Day1.paths.
Proof.
  unfold Day1.paths. constructor; [exact day1_pool_one_jurisdiction|].
  constructor; [|constructor]. intros p q [].
Defined.




(** C10: a day without stops contributes no row, so the table of a run
    re-groups into the routes of the days that have stops: strictly fewer
    routes than the run has days as soon as one day is empty, and the
    routes of the run exactly when no day is empty. *)
Theorem empty_routes_vanish (paths : list (list POI)) :
  Forall one_jurisdiction paths ->
  (forall route_idx, rows_of_route route_idx [] = [])
  /\ flat_data paths = concat (imap rows_of_route paths)
  /\ regrouped_routes (flat_data paths)
     = original_routes (List.filter has_stops paths)
  /\ (In [] paths -> length (regroup (flat_data paths)) < length paths)
  /\ (regrouped_routes (flat_data paths) = original_routes paths
      <-> Forall (fun route => route <> []) paths).
Proof.
  intros Hj.
  assert (Hlen : length (regroup (flat_data paths))
                 = length (List.filter has_stops paths)).
  { pose proof (regrouped_routes_flat_data paths Hj) as H.
    apply (f_equal length) in H.
    unfold regrouped_routes, original_routes in H.
    by rewrite !length_map in H. }
  split_and!.
  - done.
  - apply flat_data_concat.
  - by apply regrouped_routes_flat_data.
  - intros Hin. rewrite Hlen. by apply filter_has_stops_length.
  - split.
    + intros H. apply Forall_forall. intros route Hin ->.
      apply list_elem_of_In, filter_has_stops_length in Hin.
      apply (f_equal length) in H.
      unfold regrouped_routes, original_routes in H.
      rewrite !length_map, Hlen in H. lia.
    + intros Hne.
      by rewrite regrouped_routes_flat_data, filter_has_stops_all.
Qed.

Lemma empty_routes_vanish_witness :
  Forall one_jurisdiction Day1.paths
  /\ In [] Day1.paths
  /\ length (regroup (flat_data Day1.paths)) < length Day1.paths.
Proof.
  split; [exact day1_paths_one_jurisdiction|].
  assert (Hin : In [] Day1.paths) by (right; left; reflexivity).
  split; [exact Hin|].
  exact (proj1 (proj2 (proj2 (proj2
           (empty_routes_vanish Day1.paths day1_paths_one_jurisdiction))))
         Hin).
Defined.

(** ** The travel-time model *)
Module GeoDistanceFacts.
Import GeoDistance.
Local Open Scope R_scope.

Lemma asin_nonneg (x : R) : 0 <= x -> 0 <= asin x.
Proof.
  intros Hx. unfold asin.
  destruct (Rle_dec x (-1)) as [H|_]; [lra|].
  destruct (Rle_dec 1 x) as [_|H].
  - pose proof PI_RGT_0. lra.
  - rewrite <- atan_0.
    assert (H0 : 0 <= x / sqrt (1 - x²)).
    { unfold Rdiv. apply Rmult_le_pos; [done|].
      destruct (Req_dec (sqrt (1 - x²)) 0) as [->|Hne].
      - rewrite Rinv_0. lra.
      - left. apply Rinv_0_lt_compat.
        pose proof (sqrt_pos (1 - x²)). lra. }
    destruct H0 as [H0| <-]; [|lra].
    left. by apply atan_increasing.
Qed.

Lemma radians_opp (x y : R) : radians (x - y) / 2 = - (radians (y - x) / 2).
Proof. unfold radians. lra. Qed.

Lemma haversine_km_nonneg (lat1 lon1 lat2 lon2 : R) :
  0 <= haversine_km lat1 lon1 lat2 lon2.
Proof.
  unfold haversine_km. cbv zeta.
  apply Rmult_le_pos; [unfold earth_radius_km; lra|].
  apply asin_nonneg, sqrt_pos.
Qed.

Lemma haversine_km_sym (lat1 lon1 lat2 lon2 : R) :
  haversine_km lat1 lon1 lat2 lon2 = haversine_km lat2 lon2 lat1 lon1.
Proof.
  unfold haversine_km. cbv zeta.
  rewrite (radians_opp lat2 lat1), (radians_opp lon2 lon1).
  rewrite !sin_neg, <- !Rsqr_neg.
  by rewrite (Rmult_comm (cos (radians lat1))).
Qed.

Lemma haversine_km_same (lat1 lon1 : R) :
  haversine_km lat1 lon1 lat1 lon1 = 0.
Proof.
  unfold haversine_km. cbv zeta.
  replace (radians (lat1 - lat1) / 2) with 0 by (unfold radians; lra).
  replace (radians (lon1 - lon1) / 2) with 0 by (unfold radians; lra).
  rewrite sin_0, Rsqr_0, Rmult_0_r, Rplus_0_r, sqrt_0, asin_0. lra.
Qed.

(** C9: the travel time is a function of the four coordinates that is
    never negative, is the same in both directions, and is zero from a
    point to itself. *)
Theorem travel_time_properties (lat1 lon1 lat2 lon2 : R) :
  0 <= travel_time lat1 lon1 lat2 lon2
  /\ travel_time lat1 lon1 lat2 lon2 = travel_time lat2 lon2 lat1 lon1
  /\ travel_time lat1 lon1 lat1 lon1 = 0.
Proof.
  unfold travel_time, walking_speed_kmh, correction_factor. cbv zeta.
  split_and!.
  - pose proof (haversine_km_nonneg lat1 lon1 lat2 lon2). lra.
  - by rewrite haversine_km_sym.
  - rewrite haversine_km_same. lra.
Qed.
End GeoDistanceFacts.

(** ** The jurisdiction index *)

(** Every entry of the index under construction holds POIs of its own
    jurisdiction, in the order the dataset lists them. *)
Lemma build_entries (all_pois : list POI) :
  forall (index : gmap string (list POI)) (seen : list POI),
  (forall j pois, index !! j = Some pois ->
     Forall (fun poi => jurisdiction poi = j) pois
     /\ pois `sublist_of` seen) ->
  forall j pois,
    fold_left
      (fun index poi =>
         <[jurisdiction poi :=
             default [] (index !! jurisdiction poi) ++ [poi]]> index)
      all_pois index !! j = Some pois ->
    Forall (fun poi => jurisdiction poi = j) pois
    /\ pois `sublist_of` seen ++ all_pois.
Proof.
  induction all_pois as [|poi all_pois IH]; intros index seen Hinv j pois;
    cbn [fold_left].
  - rewrite app_nil_r. apply Hinv.
  - replace (seen ++ poi :: all_pois) with ((seen ++ [poi]) ++ all_pois)
      by (by rewrite <- app_assoc).
    apply IH. clear j pois. intros j pois.
    destruct (decide (jurisdiction poi = j)) as [<-|Hne].
    + rewrite lookup_insert_eq. intros [= <-].
      destruct (index !! jurisdiction poi) as [old|] eqn:E; simpl.
      * destruct (Hinv _ _ E) as [Hj Hs]. split.
        -- apply Forall_app. split; [done|]. by constructor.
        -- by apply sublist_app.
      * split; [by repeat constructor|]. by apply sublist_inserts_l.
    + rewrite lookup_insert_ne by done. intros E.
      destruct (Hinv _ _ E) as [Hj Hs]. split; [done|].
      by apply sublist_inserts_r.
Qed.

(** Built from a dataset with unique POI ids, the index has the invariant
    the builder relies on. *)
Lemma build_index_wf (all_pois : list POI) :
  NoDup (map id all_pois) -> index_wf (build all_pois).
Proof.
  intros Hid j pois E.
  assert (Hinv : forall j pois,
            (∅ : gmap string (list POI)) !! j = Some pois ->
            Forall (fun poi => jurisdiction poi = j) pois
            /\ pois `sublist_of` []).
  { intros j' pois' H. by rewrite lookup_empty in H. }
  destruct (build_entries all_pois ∅ [] Hinv j pois E) as [Hj Hs].
  split; [done|].
  eapply sublist_NoDup; [exact Hid|]. apply (fmap_sublist id), Hs.
Qed.

(** * Further properties of the notebook *)

(** ** The builder *)
Section BuilderFacts.
Variable jurisdictions : gmap string (list POI).
Variable is_valid_route : POI -> list POI -> bool.

Local Abbreviation step := (try_poi is_valid_route).
Local Abbreviation route := (high_value_strategy jurisdictions is_valid_route).
Local Abbreviation candidates := (spec_candidates jurisdictions).

Lemma select_loop_prefix sp cands acc :
  acc `prefix_of` fold_left (step sp) cands acc.
Proof.
  destruct (select_loop_sublist is_valid_route sp cands acc)
    as (rest & -> & _).
  by exists rest.
Qed.

Lemma select_loop_prefixes_valid sp cands : forall acc,
  (forall n, 0 < n <= length acc ->
     is_valid_route sp (take n acc) = true) ->
  forall n, 0 < n <= length (fold_left (step sp) cands acc) ->
    is_valid_route sp (take n (fold_left (step sp) cands acc)) = true.
Proof.
  induction cands as [|c cands IH]; intros acc Hacc; cbn [fold_left]; [done|].
  apply IH. unfold try_poi. cbv zeta.
  destruct (length (acc ++ [c]) <=? 8); simpl; [|done].
  destruct (is_valid_route sp (acc ++ [c])) eqn:E; [|done].
  intros n Hn. rewrite length_app in Hn. simpl in Hn.
  destruct (decide (n <= length acc)) as [Hle|Hgt].
  - rewrite take_app_le by done. apply Hacc. lia.
  - rewrite take_ge; [done|]. rewrite length_app. simpl. lia.
Qed.

Lemma select_loop_rejected sp cands : forall acc,
  length (fold_left (step sp) cands acc) < 8 ->
  forall c, c ∈ cands -> c ∉ fold_left (step sp) cands acc ->
  exists p, p `prefix_of` fold_left (step sp) cands acc
            /\ is_valid_route sp (p ++ [c]) = false.
Proof.
  induction cands as [|c0 cands IH]; intros acc Hlen c Hc Hnot;
    cbn [fold_left] in *; [by apply elem_of_nil in Hc|].
  apply elem_of_cons in Hc as [->|Hc]; [|by apply IH].
  pose proof (select_loop_prefix sp cands (step sp acc c0)) as Hpre.
  unfold try_poi in Hpre, Hnot, Hlen |- *. cbv zeta in *.
  destruct (length (acc ++ [c0]) <=? 8) eqn:El; simpl in *.
  - destruct (is_valid_route sp (acc ++ [c0])) eqn:Ev.
    + exfalso. apply Hnot. destruct Hpre as [k ->].
      rewrite !elem_of_app, elem_of_cons. auto.
    + by exists acc.
  - apply Nat.leb_gt in El. rewrite length_app in El. simpl in El.
    apply prefix_length in Hpre. lia.
Qed.

Lemma select_loop_all_valid sp cands : forall acc,
  (forall r, is_valid_route sp r = true) ->
  fold_left (step sp) cands acc = acc ++ take (8 - length acc) cands.
Proof.
  induction cands as [|c cands IH]; intros acc Hv; cbn [fold_left].
  - by rewrite take_nil, app_nil_r.
  - rewrite IH by done. unfold try_poi. cbv zeta. rewrite Hv, andb_true_r.
    rewrite length_app. simpl.
    destruct (length acc + 1 <=? 8) eqn:E.
    + apply Nat.leb_le in E. rewrite length_app, <- app_assoc. simpl.
      replace (8 - length acc) with (S (8 - (length acc + 1))) by lia.
      done.
    + apply Nat.leb_gt in E.
      replace (8 - length acc) with 0 by lia. done.
Qed.

Lemma select_loop_no_single sp cands :
  Forall (fun c => is_valid_route sp [c] = false) cands ->
  fold_left (step sp) cands [] = [].
Proof.
  induction 1 as [|c cands Hc _ IH]; cbn [fold_left]; [done|].
  unfold try_poi. cbv zeta. simpl. by rewrite Hc.
Qed.

Lemma filter_perm {A} (f : A -> bool) (l l' : list A) :
  l ≡ₚ l' -> List.filter f l ≡ₚ List.filter f l'.
Proof.
  induction 1 as [|x l l' _ IH|x y l|l1 l2 l3 _ IH1 _ IH2]; simpl.
  - done.
  - destruct (f x); by rewrite IH.
  - destruct (f x), (f y); by try apply perm_swap.
  - by rewrite IH1.
Qed.
End BuilderFacts.

(** X1: every stop of a route is one of the POIs the table lists under
    the starting point's jurisdiction, taken no more often than the table
    lists it, and no stop carries the starting point's id; so a route has
    at most as many stops as its jurisdiction has POIs. *)
Theorem route_drawn_from_table
    (jurisdictions : gmap string (list POI))
    (is_valid_route : POI -> list POI -> bool) (starting_point : POI) :
  let route :=
    high_value_strategy jurisdictions is_valid_route starting_point in
  let pois := default [] (jurisdictions !! jurisdiction starting_point) in
  route ⊆+ List.filter (fun poi => negb (id poi =? id starting_point)%Z) pois
  /\ route ⊆+ pois
  /\ Forall (fun poi => id poi <> id starting_point) route
  /\ length route <= length pois.
Proof.
  intros route pois.
  assert (H1 : route
            ⊆+ List.filter (fun poi => negb (id poi =? id starting_point)%Z)
                 pois).
  { apply submseteq_sublist_l. eexists. split.
    - apply route_sublist_sorted.
    - apply list_sort_reverse_perm. }
  assert (H2 : route ⊆+ pois).
  { etransitivity; [exact H1|]. apply sublist_submseteq, filter_sublist. }
  split_and!; [done..| |by apply submseteq_length].
  apply Forall_forall. intros poi Hin.
  eapply elem_of_submseteq in Hin; [|exact H1].
  apply list_elem_of_In, filter_In in Hin as [_ Hne].
  apply negb_true_iff, Z.eqb_neq in Hne. done.
Qed.

(** X2: every non-empty beginning of a route was accepted by the
    validator: the route was feasible after each of its stops. *)
Theorem route_prefixes_accepted
    (jurisdictions : gmap string (list POI))
    (is_valid_route : POI -> list POI -> bool) (starting_point : POI)
    (n : nat) :
  0 < n <= length (high_value_strategy jurisdictions is_valid_route
                     starting_point) ->
  is_valid_route starting_point
    (take n (high_value_strategy jurisdictions is_valid_route
               starting_point)) = true.
Proof.
  rewrite high_value_strategy_unfold.
  apply select_loop_prefixes_valid. simpl. lia.
Qed.

Lemma route_prefixes_accepted_witness :
  0 < 2 <= length (high_value_strategy Day1.index Examples.two_stops
                     Day1.starting_point)
  /\ Examples.two_stops Day1.starting_point
       (take 2 (high_value_strategy Day1.index Examples.two_stops
                  Day1.starting_point)) = true.
Proof.
  assert (H : 0 < 2 <= length (high_value_strategy Day1.index
                                 Examples.two_stops Day1.starting_point))
    by (vm_compute; lia).
  split; [exact H|].
  exact (route_prefixes_accepted Day1.index Examples.two_stops
           Day1.starting_point 2 H).
Defined.

(** X3: the builder is greedy to the end.  When the route has fewer than
    8 stops, every candidate that is not on it was refused by the
    validator as the next stop after some beginning of the route. *)
Theorem route_greedy_maximal
    (jurisdictions : gmap string (list POI))
    (is_valid_route : POI -> list POI -> bool) (starting_point : POI)
    (candidate : POI) :
  length (high_value_strategy jurisdictions is_valid_route starting_point)
  < 8 ->
  candidate ∈ spec_candidates jurisdictions starting_point ->
  candidate ∉ high_value_strategy jurisdictions is_valid_route
                starting_point ->
  exists beginning,
    beginning `prefix_of`
      high_value_strategy jurisdictions is_valid_route starting_point
    /\ is_valid_route starting_point (beginning ++ [candidate]) = false.
Proof.
  rewrite high_value_strategy_unfold. intros Hlen Hc Hnot.
  apply select_loop_rejected; [done| |done].
  by rewrite list_sort_reverse_perm.
Qed.

Lemma route_greedy_maximal_witness :
  length (high_value_strategy Day1.index Examples.two_stops
            Day1.starting_point) < 8
  /\ (Day1.bakery ∈ spec_candidates Day1.index Day1.starting_point)
  /\ (Day1.bakery ∉ high_value_strategy Day1.index Examples.two_stops
                      Day1.starting_point)
  /\ exists beginning,
       beginning `prefix_of`
         high_value_strategy Day1.index Examples.two_stops
           Day1.starting_point
       /\ Examples.two_stops Day1.starting_point
            (beginning ++ [Day1.bakery]) = false.
Proof.
  assert (H1 : length (high_value_strategy Day1.index Examples.two_stops
                         Day1.starting_point) < 8)
    by (vm_compute; lia).
  assert (H2 : Day1.bakery ∈ spec_candidates Day1.index Day1.starting_point)
    by (apply list_elem_of_In; vm_compute; tauto).
  assert (H3 : Day1.bakery ∉ high_value_strategy Day1.index
                 Examples.two_stops Day1.starting_point).
  { intros H%list_elem_of_In. vm_compute in H.
    destruct H as [H|[H|[]]]; discriminate H. }
  split; [exact H1|]. split; [exact H2|]. split; [exact H3|].
  exact (route_greedy_maximal Day1.index Examples.two_stops
           Day1.starting_point Day1.bakery H1 H2 H3).
Defined.

(** X4: with a validator that accepts every route, the route is made of
    the first 8 candidates in descending fee order (all of them when there
    are at most 8). *)
Theorem route_all_feasible
    (jurisdictions : gmap string (list POI))
    (is_valid_route : POI -> list POI -> bool) (starting_point : POI) :
  (forall route, is_valid_route starting_point route = true) ->
  high_value_strategy jurisdictions is_valid_route starting_point
  = take 8 (list_sort fee_value true
              (spec_candidates jurisdictions starting_point)).
Proof.
  intros Hv. rewrite high_value_strategy_unfold.
  by rewrite select_loop_all_valid.
Qed.

Lemma route_all_feasible_witness :
  (forall route, Day1.all_feasible Day1.starting_point route = true)
  /\ high_value_strategy Day1.index Day1.all_feasible Day1.starting_point
     = take 8 (list_sort fee_value true
                 (spec_candidates Day1.index Day1.starting_point)).
Proof.
  assert (H : forall route, Day1.all_feasible Day1.starting_point route = true)
    by (intros; reflexivity).
  split; [exact H|].
  exact (route_all_feasible Day1.index Day1.all_feasible
           Day1.starting_point H).
Defined.

(** X5: when the validator refuses every candidate as a first stop, the
    route is empty: later candidates are only ever tried as first stops
    too. *)
Theorem route_no_first_stop
    (jurisdictions : gmap string (list POI))
    (is_valid_route : POI -> list POI -> bool) (starting_point : POI) :
  (forall candidate,
     candidate ∈ spec_candidates jurisdictions starting_point ->
     is_valid_route starting_point [candidate] = false) ->
  high_value_strategy jurisdictions is_valid_route starting_point = [].
Proof.
  intros Hv. rewrite high_value_strategy_unfold.
  apply select_loop_no_single, Forall_forall. intros c Hc. apply Hv.
  by rewrite list_sort_reverse_perm in Hc.
Qed.

Lemma route_no_first_stop_witness :
  (forall candidate,
     candidate ∈ spec_candidates Day1.index Day1.starting_point ->
     Examples.none_feasible Day1.starting_point [candidate] = false)
  /\ high_value_strategy Day1.index Examples.none_feasible
       Day1.starting_point = [].
Proof.
  assert (H : forall candidate,
     candidate ∈ spec_candidates Day1.index Day1.starting_point ->
     Examples.none_feasible Day1.starting_point [candidate] = false)
    by (intros; reflexivity).
  split; [exact H|].
  exact (route_no_first_stop Day1.index Examples.none_feasible
           Day1.starting_point H).
Defined.

(** ** The sort, continued *)
Section ListSortMore.
Context {A : Type} (key : A -> Q).

Lemma list_sort_reverse_fixed (l : list A) :
  sorted_desc key l -> list_sort key true l = l.
Proof.
  intros Hl. apply (sorted_desc_ties_unique key); [|done|].
  - apply list_sort_reverse_desc.
  - apply list_sort_reverse_ties.
Qed.

Lemma filter_filter_comm (f g : A -> bool) (l : list A) :
  List.filter f (List.filter g l) = List.filter g (List.filter f l).
Proof.
  induction l as [|x l IH]; simpl; [done|].
  destruct (f x) eqn:Ef, (g x) eqn:Eg; simpl; rewrite ?Ef, ?Eg, IH; done.
Qed.

(** A stable sort and a filter can be applied in either order. *)
Lemma list_sort_reverse_filter (f : A -> bool) (l : list A) :
  list_sort key true (List.filter f l)
  = List.filter f (list_sort key true l).
Proof.
  apply (sorted_desc_ties_unique key).
  - apply list_sort_reverse_desc.
  - eapply sorted_desc_sublist; [apply filter_sublist|].
    apply list_sort_reverse_desc.
  - intros k. rewrite list_sort_reverse_ties. unfold with_key.
    rewrite (filter_filter_comm _ f l).
    rewrite (filter_filter_comm _ f (list_sort key true l)).
    f_equal. symmetry. apply (list_sort_reverse_ties key l k).
Qed.

(** A descending list without equal keys is strictly descending. *)
Lemma distinct_sorted_strict (l : list A) :
  sorted_desc key l -> distinct_keys key l -> strictly_desc key l.
Proof.
  unfold sorted_desc, distinct_keys, strictly_desc.
  induction 1 as [|a t Ht IH Ha]; intros Hd; [constructor|].
  simpl in Hd. apply NoDup_cons in Hd as [Hnot Hd].
  constructor; [by apply IH|].
  rewrite Forall_forall in Ha |- *. intros y Hy.
  destruct (Qle_lt_or_eq _ _ (Ha y Hy)) as [Hlt|Heq]; [done|].
  exfalso. apply Hnot. apply Qred_complete in Heq. rewrite <- Heq.
  apply list_elem_of_fmap. by exists y.
Qed.

(** With pairwise different keys the sorted list does not depend on the
    order of the input. *)
Lemma list_sort_reverse_order (l l' : list A) :
  l ≡ₚ l' -> distinct_keys key l' ->
  list_sort key true l = list_sort key true l'.
Proof.
  intros Hp Hd. apply list_sort_reverse_strict.
  - by rewrite list_sort_reverse_perm.
  - apply distinct_sorted_strict; [apply list_sort_reverse_desc|].
    unfold distinct_keys.
    change (NoDup ((fun x => Qred (key x)) <$> list_sort key true l')).
    by rewrite list_sort_reverse_perm.
Qed.
End ListSortMore.

(** X6: sorting leaves a list of POIs alone that is already in
    non-increasing fee order; in particular sorting twice is sorting
    once. *)
Theorem sort_fixes_sorted (pois : list POI) :
  sorted_desc fee_value pois ->
  list_sort fee_value true pois = pois.
Proof. apply list_sort_reverse_fixed. Qed.

Lemma sort_fixes_sorted_witness :
  sorted_desc fee_value Day1.pool
  /\ list_sort fee_value true Day1.pool = Day1.pool.
Proof.
  assert (H : sorted_desc fee_value Day1.pool).
  { unfold sorted_desc, Day1.pool.
    repeat constructor; vm_compute; discriminate. }
  split; [exact H|].
  exact (sort_fixes_sorted Day1.pool H).
Defined.

(** X7: the starting point may be excluded before or after sorting: the
    builder's route is also the scan of the whole jurisdiction, sorted,
    with the POIs carrying the starting point's id left out. *)
Theorem route_sort_then_exclude
    (jurisdictions : gmap string (list POI))
    (is_valid_route : POI -> list POI -> bool) (starting_point : POI) :
  high_value_strategy jurisdictions is_valid_route starting_point
  = fold_left (try_poi is_valid_route starting_point)
      (List.filter (fun poi => negb (id poi =? id starting_point)%Z)
         (list_sort fee_value true
            (default [] (jurisdictions !! jurisdiction starting_point))))
      [].
Proof.
  rewrite high_value_strategy_unfold. unfold spec_candidates.
  by rewrite list_sort_reverse_filter.
Qed.

(** X8: the order in which the dataset lists the POIs of a jurisdiction
    matters for ties only: two tables that list the same POIs, with
    pairwise different fee values, in different orders give the same
    route. *)
Theorem route_order_independent
    (jurisdictions jurisdictions' : gmap string (list POI))
    (is_valid_route : POI -> list POI -> bool) (starting_point : POI)
    (pois pois' : list POI) :
  jurisdictions !! jurisdiction starting_point = Some pois ->
  jurisdictions' !! jurisdiction starting_point = Some pois' ->
  pois ≡ₚ pois' ->
  distinct_keys fee_value pois' ->
  high_value_strategy jurisdictions is_valid_route starting_point
  = high_value_strategy jurisdictions' is_valid_route starting_point.
Proof.
  intros E E' Hp Hd. rewrite !high_value_strategy_unfold.
  unfold spec_candidates. rewrite E, E'. simpl. f_equal.
  apply list_sort_reverse_order; [by apply filter_perm|].
  unfold distinct_keys in *.
  eapply sublist_NoDup; [exact Hd|].
  apply (fmap_sublist (fun x => Qred (fee_value x))), filter_sublist.
Qed.

Lemma day1_pool_distinct_fees : distinct_keys fee_value Day1.pool.
Proof.
  unfold distinct_keys, Day1.pool. vm_compute map.
  repeat (apply NoDup_cons_2;
          [rewrite ?not_elem_of_cons; repeat split;
           [discriminate..|apply not_elem_of_nil]|]).
  apply NoDup_nil_2.
Defined.

Lemma route_order_independent_witness :
  Day1.index !! jurisdiction Day1.starting_point = Some Day1.dataset
  /\ Examples.sorted_index !! jurisdiction Day1.starting_point
     = Some Day1.pool
  /\ Day1.dataset ≡ₚ Day1.pool
  /\ distinct_keys fee_value Day1.pool
  /\ high_value_strategy Day1.index Examples.two_stops Day1.starting_point
     = high_value_strategy Examples.sorted_index Examples.two_stops
         Day1.starting_point.
Proof.
  assert (H1 : Day1.index !! jurisdiction Day1.starting_point
               = Some Day1.dataset) by (vm_compute; reflexivity).
  assert (H2 : Examples.sorted_index !! jurisdiction Day1.starting_point
               = Some Day1.pool) by (vm_compute; reflexivity).
  assert (H3 : Day1.dataset ≡ₚ Day1.pool)
    by exact (Permutation_app_comm [Day1.bakery; Day1.hairdresser]
                [Day1.swimming_pool; Day1.sports_centre]).
  split; [exact H1|]. split; [exact H2|]. split; [exact H3|].
  split; [exact day1_pool_distinct_fees|].
  exact (route_order_independent Day1.index Examples.sorted_index
           Examples.two_stops Day1.starting_point Day1.dataset Day1.pool
           H1 H2 H3 day1_pool_distinct_fees).
Defined.

(** ** The driver and the table, continued *)

Lemma string_length_app (s1 s2 : string) :
  String.length (s1 +:+ s2) = String.length s1 + String.length s2.
Proof.
  induction s1 as [|c s1 IH]; [done|].
  change (S (String.length (s1 +:+ s2))
          = S (String.length s1 + String.length s2)).
  by rewrite IH.
Qed.

Lemma string_app_inv_r (t : string) (s1 : string) : forall s2,
  s1 +:+ t = s2 +:+ t -> s1 = s2.
Proof.
  induction s1 as [|c s1 IH]; intros [|c' s2] H; [done|..].
  - apply (f_equal String.length) in H.
    rewrite (string_length_app (String c' s2)) in H.
    change (String.length ("" +:+ t)) with (String.length t) in H.
    simpl in H. lia.
  - apply (f_equal String.length) in H.
    rewrite (string_length_app (String c s1)) in H.
    change (String.length ("" +:+ t)) with (String.length t) in H.
    simpl in H. lia.
  - change (String c (s1 +:+ t) = String c' (s2 +:+ t)) in H.
    injection H as -> H. f_equal. by apply IH.
Qed.

(** A [route_id] determines its jurisdiction tag as well as its day. *)
Lemma route_id_of_inj j i j' i' :
  route_id_of j i = route_id_of j' i' -> j = j' /\ i = i'.
Proof.
  intros H. pose proof (route_id_of_day _ _ _ _ H) as <-.
  split; [|done]. unfold route_id_of in H.
  change ("R_" +:+ j +:+ "_" +:+ str i)
    with (String "R" (String "_" (j +:+ "_" +:+ str i))) in H.
  change ("R_" +:+ j' +:+ "_" +:+ str i)
    with (String "R" (String "_" (j' +:+ "_" +:+ str i))) in H.
  injection H as H. by apply string_app_inv_r in H.
Qed.

Lemma rows_of_route_length (n : nat) (route : list POI) :
  length (rows_of_route n route) = length route.
Proof. apply length_imap. Qed.

Lemma rows_from_app (paths paths' : list (list POI)) : forall n,
  rows_from n (paths ++ paths')
  = rows_from n paths ++ rows_from (n + length paths) paths'.
Proof.
  induction paths as [|route paths IH]; intros n; simpl.
  - by rewrite Nat.add_0_r.
  - rewrite IH, <- app_assoc. do 3 f_equal. lia.
Qed.

Lemma rows_from_stops (paths : list (list POI)) : forall n,
  map stop_of_row (rows_from n paths) = map stop_of_poi (concat paths).
Proof.
  induction paths as [|route paths IH]; intros n; simpl; [done|].
  by rewrite !map_app, stops_of_rows, IH.
Qed.

Lemma rows_from_positions (paths : list (list POI)) : forall n,
  map TableRow.jurisdiction_id (rows_from n paths)
  = concat (map (fun route => seq 0 (length route)) paths).
Proof.
  induction paths as [|route paths IH]; intros n; simpl; [done|].
  rewrite map_app, IH. f_equal. unfold rows_of_route.
  change (TableRow.jurisdiction_id
            <$> imap (fun poi_idx poi => make_row n poi_idx poi) route
          = seq 0 (length route)).
  rewrite fmap_imap.
  rewrite (imap_ext _ (fun k _ => k) route) by done.
  rewrite (imap_seq_0 route (fun k => k)). apply list_fmap_id.
Qed.

Lemma rows_from_lookup (paths : list (list POI)) :
  forall n i route k poi,
  paths !! i = Some route -> route !! k = Some poi ->
  rows_from n paths !! (rows_before paths i + k)
  = Some (make_row (n + i) k poi).
Proof.
  unfold rows_before.
  induction paths as [|r paths IH]; intros n i route k poi Hi Hk; [done|].
  destruct i as [|i]; simpl in *.
  - injection Hi as ->. rewrite lookup_app_l.
    + unfold rows_of_route. rewrite list_lookup_imap, Hk, Nat.add_0_r. done.
    + rewrite rows_of_route_length. by eapply lookup_lt_Some.
  - rewrite lookup_app_r; rewrite rows_of_route_length, length_app; [|lia].
    replace (length r + length (concat (take i paths)) + k - length r)
      with (length (concat (take i paths)) + k) by lia.
    rewrite (IH (S n) i route k poi) by done. do 2 f_equal. lia.
Qed.

(** X9: the driver produces one route per starting point, in order; the
    route of a day is the one the builder gives for its starting point on
    its own, whatever the other days are, and a longer list of starting
    points only adds routes at the end. *)
Theorem build_paths_per_day
    (jurisdictions : gmap string (list POI))
    (is_valid_route : POI -> list POI -> bool)
    (starting_points : list POI) :
  length (build_paths jurisdictions is_valid_route starting_points)
  = length starting_points
  /\ (forall day,
        build_paths jurisdictions is_valid_route starting_points !! day
        = high_value_strategy jurisdictions is_valid_route
            <$> starting_points !! day)
  /\ (forall more,
        build_paths jurisdictions is_valid_route (starting_points ++ more)
        = build_paths jurisdictions is_valid_route starting_points
          ++ build_paths jurisdictions is_valid_route more).
Proof.
  split_and!.
  - by rewrite build_paths_map, length_map.
  - intros day. rewrite build_paths_map. apply list_lookup_fmap.
  - intros more. by rewrite !build_paths_map, map_app.
Qed.

(** X10: the table keeps every stop, in order: read top to bottom, its
    (poi_id, lat, lon) columns are the stops of day 0, then those of day 1,
    and so on; it has as many rows as the routes have stops. *)
Theorem flat_data_keeps_stops (paths : list (list POI)) :
  map stop_of_row (flat_data paths) = map stop_of_poi (concat paths)
  /\ length (flat_data paths) = length (concat paths).
Proof.
  assert (H : map stop_of_row (flat_data paths)
              = map stop_of_poi (concat paths))
    by (rewrite flat_data_rows_from; apply rows_from_stops).
  split; [done|]. apply (f_equal length) in H. by rewrite !length_map in H.
Qed.

(** X11: the row of stop [poi_idx] of day [route_idx] stands at the
    position given by the number of stops of the earlier days plus
    [poi_idx], and holds that day index, that stop index and the stop's
    id and coordinates. *)
Theorem flat_data_lookup (paths : list (list POI)) (route_idx poi_idx : nat)
    (route : list POI) (poi : POI) :
  paths !! route_idx = Some route ->
  route !! poi_idx = Some poi ->
  flat_data paths !! (rows_before paths route_idx + poi_idx)
  = Some (make_row route_idx poi_idx poi).
Proof.
  intros Hi Hk. rewrite flat_data_rows_from.
  by rewrite (rows_from_lookup paths 0 route_idx route poi_idx poi).
Qed.

Lemma flat_data_lookup_witness :
  [Day1.pool; Day1.dataset] !! 1 = Some Day1.dataset
  /\ Day1.dataset !! 2 = Some Day1.swimming_pool
  /\ flat_data [Day1.pool; Day1.dataset]
     !! (rows_before [Day1.pool; Day1.dataset] 1 + 2)
     = Some (make_row 1 2 Day1.swimming_pool).
Proof.
  assert (H1 : [Day1.pool; Day1.dataset] !! 1 = Some Day1.dataset)
    by reflexivity.
  assert (H2 : Day1.dataset !! 2 = Some Day1.swimming_pool) by reflexivity.
  split; [exact H1|]. split; [exact H2|].
  exact (flat_data_lookup [Day1.pool; Day1.dataset] 1 2 Day1.dataset
           Day1.swimming_pool H1 H2).
Defined.

(** X12: the column [jurisdiction_id] of the table counts the stops of
    each day from 0: it reads 0, 1, ... up to the day's last stop, day
    after day, and holds no jurisdiction. *)
Theorem flat_data_stop_positions (paths : list (list POI)) :
  map TableRow.jurisdiction_id (flat_data paths)
  = concat (map (fun route => seq 0 (length route)) paths).
Proof. rewrite flat_data_rows_from. apply rows_from_positions. Qed.

(** X13: a [route_id] names one day and one jurisdiction tag: two rows
    with the same [route_id] belong to the same day and their stops to the
    same jurisdiction, whatever characters the tags are made of. *)
Theorem route_id_identifies_day
    (route_idx poi_idx route_idx' poi_idx' : nat) (poi poi' : POI) :
  TableRow.route_id (make_row route_idx poi_idx poi)
  = TableRow.route_id (make_row route_idx' poi_idx' poi') ->
  route_idx = route_idx' /\ jurisdiction poi = jurisdiction poi'.
Proof.
  intros H. by apply (route_id_of_inj (jurisdiction poi) route_idx
                        (jurisdiction poi') route_idx') in H as [? ?].
Qed.

Lemma route_id_identifies_day_witness :
  TableRow.route_id (make_row 3 0 Day1.bakery)
  = TableRow.route_id (make_row 3 4 Day1.hairdresser)
  /\ 3 = 3 /\ jurisdiction Day1.bakery = jurisdiction Day1.hairdresser.
Proof.
  assert (H : TableRow.route_id (make_row 3 0 Day1.bakery)
              = TableRow.route_id (make_row 3 4 Day1.hairdresser))
    by reflexivity.
  split; [exact H|].
  exact (route_id_identifies_day 3 0 3 4 Day1.bakery Day1.hairdresser H).
Defined.

(** X14: adding a day at the end of a run adds its rows at the end of the
    table, under the next day index, and changes no earlier row. *)
Theorem flat_data_snoc (paths : list (list POI)) (route : list POI) :
  flat_data (paths ++ [route])
  = flat_data paths ++ rows_of_route (length paths) route.
Proof.
  rewrite !flat_data_rows_from, rows_from_app. simpl.
  by rewrite app_nil_r.
Qed.


